(** * Result-shape normalisation of [generate_image] (src/app.py)

    A shallow embedding of the one function of the repository that has
    logic of its own: [generate_image] forwards a prompt to a remote
    inference service and reduces whatever comes back (a list, a dict, a
    string, an image object, anything else) to a PIL image or [None].

    The function is effectful: it constructs a client, calls [predict],
    prints diagnostics, probes the file system, opens image files and
    fetches URLs.  The embedding threads a history of such events through
    a small exception/trace monad; the outside world is a record of
    oracles that answer each call from the history so far, so a flaky
    network or a file that appears between two probes are both worlds of
    the model.

    Conventions of the model:
    - text is a [string], one code point below 256 per character;
    - a failure of a collaborator is an instance of a subclass of
      [Exception], which is what the two [except Exception] clauses of
      the function catch;
    - [print] appends its message to the history and does not fail;
    - a history lists events latest first, so the event at the head is
      the last call made.

    The module [Fallible] embeds the function a second time without the
    second and third convention ([print] may raise, and so may anything
    from outside [Exception]); it is the embedding for the question of
    what can leave the function, and it agrees with the first one on the
    worlds that keep the conventions. *)

From Stdlib Require Import ZArith Ascii String List.
From stdpp Require Import base option list strings gmap.

Local Open Scope string_scope.
Local Set Warnings "-register-all,-clear-no-such-hyp".

(** ** Python values *)

(** A decoded in-memory picture, what [Image.open] hands back. *)
Record Image := mkImage {
  im_width  : Z;
  im_height : Z;
  im_pixels : list Z
}.

(** Exception instances.  Every failure of a collaborator that the model
    knows about is an instance of a subclass of [Exception]: the class
    name and the message are kept for the diagnostics. *)
Record exn := Exn {
  exn_class : string;
  exn_msg   : string
}.

(** The values [client.predict] can hand back.  A [dict] is a finite map
    with text keys, as decoded JSON has them.  A finite float is the
    dyadic number [mantissa * 2 ^ exponent].  [PObj attrs] is any other
    object, known by the attribute names it exposes. *)
Inductive pyval :=
| PNone
| PBool   (b : bool)
| PInt    (n : Z)
| PFloat  (mantissa exponent : Z)
| PStr    (s : string)
| PBytes  (b : list Byte.byte)
| PList   (items : list pyval)
| PTuple  (items : list pyval)
| PDict   (d : gmap string pyval)
| PImage  (im : Image)
| PObj    (attrs : list string).

(** [hasattr(v, name)]: of the built-in types above none has a [save]
    attribute, a PIL image has one, any other object answers from its
    attribute list. *)
Definition hasattr_save (v : pyval) : bool :=
  match v with
  | PImage _ => true
  | PObj attrs => bool_decide ("save" ∈ attrs)
  | _ => false
  end.

(** [isinstance(v, dict) and 'image' in v], giving [v['image']]. *)
Definition dict_image (v : pyval) : option pyval :=
  match v with
  | PDict d => d !! "image"
  | _ => None
  end.

(** ** Text helpers *)

(** [str.isspace] on one character, for the code points a [string]
    holds (0 to 255): TAB, LF, VT, FF, CR, the four separators FS, GS, RS,
    US, the space, NEL (0x85) and the no-break space (0xA0). *)
Definition py_isspace (c : ascii) : bool :=
  let n := N_of_ascii c in
  ((9 <=? n) && (n <=? 13) || (28 <=? n) && (n <=? 32)
   || (n =? 133) || (n =? 160))%N.

Fixpoint lstrip (s : string) : string :=
  match s with
  | EmptyString => EmptyString
  | String c s' => if py_isspace c then lstrip s' else s
  end.

Fixpoint rstrip (s : string) : string :=
  match s with
  | EmptyString => EmptyString
  | String c s' =>
      match rstrip s' with
      | EmptyString => if py_isspace c then EmptyString else String c EmptyString
      | r => String c r
      end
  end.

(** [s.strip()] with no argument. *)
Definition strip (s : string) : string := rstrip (lstrip s).

(** Truth value of a [str]: only the empty one is false. *)
Definition str_truthy (s : string) : bool :=
  match s with
  | EmptyString => false
  | String _ _ => true
  end.

(** [s.startswith(('http://', 'https://'))]. *)
Definition startswith_http (s : string) : bool :=
  String.prefix "http://" s || String.prefix "https://" s.

(** ** Events, histories and the outside world *)

(** The five diagnostics the function prints. *)
Inductive log_msg :=
| DebugResultType (result : pyval)
| DebugResult     (result : pyval)
| DebugItemError  (i : nat) (e : exn)
| DebugNoValid
| DebugFullError  (e : exn).

(** One entry of the history per call that leaves the function. *)
Inductive event :=
| EvClient         (space : string)
| EvPredict        (prompt negative : string) (scale : pyval)
| EvPrint          (m : log_msg)
| EvExists         (path : pyval)
| EvImageOpen      (fp : pyval)
| EvGet            (url : string)
| EvImageOpenBytes (content : list Byte.byte).

(** A history lists the events so far, the latest first. *)
Definition history := list event.

Inductive outcome (A : Type) :=
| Ret   (a : A)
| Raise (e : exn).
Arguments Ret {A} a.
Arguments Raise {A} e.

(** The collaborators.  Each oracle sees the history before its call, so
    its answers may change from one call to the next. *)
Record World := mkWorld {
  Client           : history -> string -> outcome unit;
  predict          : history -> string -> string -> pyval -> outcome pyval;
  os_path_exists   : history -> pyval -> outcome bool;
  Image_open       : history -> pyval -> outcome Image;
  requests_get     : history -> string -> outcome (list Byte.byte);
  Image_open_bytes : history -> list Byte.byte -> outcome Image
}.

(** ** The monad of the embedding: exceptions over a history *)

Definition M (A : Type) : Type := history -> outcome A * history.

Definition ret {A} (a : A) : M A := fun h => (Ret a, h).

Definition bind {A B} (m : M A) (k : A -> M B) : M B :=
  fun h =>
    match m h with
    | (Ret a, h') => k a h'
    | (Raise e, h') => (Raise e, h')
    end.

(** [try: m  except Exception as e: handler e]. *)
Definition try_except {A} (m : M A) (handler : exn -> M A) : M A :=
  fun h =>
    match m h with
    | (Ret a, h') => (Ret a, h')
    | (Raise e, h') => handler e h'
    end.

(** A call to a collaborator: the answer comes from the history before
    the call, the call itself is appended to it. *)
Definition call {A} (ev : event) (answer : history -> outcome A) : M A :=
  fun h => (answer h, ev :: h).

Definition print (m : log_msg) : M unit :=
  fun h => (Ret tt, EvPrint m :: h).

Declare Scope py_scope.
Delimit Scope py_scope with py.
Notation "x <- c1 ;; c2" := (bind c1 (fun x => c2))
  (at level 100, c1 at next level, right associativity) : py_scope.
Notation "c1 ;;; c2" := (bind c1 (fun _ => c2))
  (at level 100, right associativity) : py_scope.
Local Open Scope py_scope.

(** ** The function *)

Section Normalizer.

Variable w : World.

Definition path_exists (p : pyval) : M bool :=
  call (EvExists p) (fun h => os_path_exists w h p).

(** [Image.open(fp)] on a path. *)
Definition open_image (fp : pyval) : M pyval :=
  im <- call (EvImageOpen fp) (fun h => Image_open w h fp);;
  ret (PImage im).

(** [response = requests.get(url)] followed by
    [Image.open(io.BytesIO(response.content))]. *)
Definition fetch_image (url : string) : M pyval :=
  content <- call (EvGet url) (fun h => requests_get w h url);;
  im <- call (EvImageOpenBytes content) (fun h => Image_open_bytes w h content);;
  ret (PImage im).

(** Lines 35-49, the body of the [try] inside the loop.  [Some v] stands
    for [return v], [None] for reaching the end of the body. *)
Definition scan_item (item : pyval) : M (option pyval) :=
  match dict_image item with
  | Some image_path =>
      b <- path_exists image_path;;
      if b then (v <- open_image image_path;; ret (Some v)) else ret None
  | None =>
      match item with
      | PStr s =>
          b <- path_exists item;;
          if b then (v <- open_image item;; ret (Some v))
          else if startswith_http s then (v <- fetch_image s;; ret (Some v))
          else ret None
      | _ => if hasattr_save item then ret (Some item) else ret None
      end
  end.

(** Lines 33-52, [for i, item in enumerate(result)] from index [i] on. *)
Fixpoint scan (i : nat) (items : list pyval) : M (option pyval) :=
  match items with
  | [] => ret None
  | item :: rest =>
      r <- try_except (scan_item item)
             (fun e => print (DebugItemError i e);;; ret None);;
      match r with
      | Some v => ret (Some v)
      | None => scan (S i) rest
      end
  end.

(** Lines 55-62, the retry on [result[0]] after the loop. *)
Definition fallback (items : list pyval) : M (option pyval) :=
  match items with
  | [] => ret None
  | first_item :: _ =>
      match dict_image first_item with
      | Some image_path =>
          b <- path_exists image_path;;
          if b then (v <- open_image image_path;; ret (Some v)) else ret None
      | None =>
          match first_item with
          | PStr _ =>
              b <- path_exists first_item;;
              if b then (v <- open_image first_item;; ret (Some v)) else ret None
          | _ => ret None
          end
      end
  end.

(** Lines 32-80, the chain of shape probes. *)
Definition probe (result : pyval) : M (option pyval) :=
  match result with
  | PList items =>
      r <- scan 0 items;;
      match r with
      | Some v => ret (Some v)
      | None => fallback items
      end
  | _ =>
      match dict_image result with
      | Some image_path =>
          b <- path_exists image_path;;
          if b then (v <- open_image image_path;; ret (Some v)) else ret None
      | None =>
          match result with
          | PStr s =>
              b <- path_exists result;;
              if b then (v <- open_image result;; ret (Some v))
              else if startswith_http s then (v <- fetch_image s;; ret (Some v))
              else ret None
          | _ => if hasattr_save result then ret (Some result) else ret None
          end
      end
  end.

(** Lines 9-88. *)
Definition generate_image (prompt negative_prompt : string)
    (guidance_scale : pyval) : M pyval :=
  if negb (str_truthy (strip prompt)) then ret PNone
  else
    try_except
      (call (EvClient "stabilityai/stable-diffusion")
            (fun h => Client w h "stabilityai/stable-diffusion");;;
       result <- call (EvPredict prompt negative_prompt guidance_scale)
                   (fun h => predict w h prompt negative_prompt guidance_scale);;
       print (DebugResultType result);;;
       print (DebugResult result);;;
       r <- probe result;;
       match r with
       | Some v => ret v
       | None => print DebugNoValid;;; ret PNone
       end)
      (fun e => print (DebugFullError e);;; ret PNone).

End Normalizer.

(** ** Predicates and helpers of the statements *)

(** Every character of [s] is white space ([s] may be empty). *)
Fixpoint whitespace_only (s : string) : bool :=
  match s with
  | EmptyString => true
  | String c s' => py_isspace c && whitespace_only s'
  end.

Definition space_name : string := "stabilityai/stable-diffusion".

(** The prompt passes the guard, the client is constructed and [predict]
    hands back [result], all from history [h]. *)
Definition remote_returns (w : World) (h : history)
    (prompt negative_prompt : string) (guidance_scale result : pyval) : Prop :=
  whitespace_only prompt = false
  /\ Client w h space_name = Ret tt
  /\ predict w (EvClient space_name :: h) prompt negative_prompt guidance_scale
     = Ret result.

(** The history when the probes start: client, predict, two prints. *)
Definition after_predict (h : history) (prompt negative_prompt : string)
    (guidance_scale result : pyval) : history :=
  EvPrint (DebugResult result) :: EvPrint (DebugResultType result)
    :: EvPredict prompt negative_prompt guidance_scale
    :: EvClient space_name :: h.

(** Lines 82-88: what the caller gets from the outcome of the probes. *)
Definition finish (r : outcome (option pyval) * history)
    : outcome pyval * history :=
  match r with
  | (Ret (Some v), h') => (Ret v, h')
  | (Ret None, h') => (Ret PNone, EvPrint DebugNoValid :: h')
  | (Raise e, h') => (Ret PNone, EvPrint (DebugFullError e) :: h')
  end.

(** ** Concrete worlds *)

Definition out_png : string := "/tmp/out.png".
Definition x_url : string := "https://example.com/x.png".
Definition png_content : list Byte.byte :=
  [Byte.x89; Byte.x50; Byte.x4e; Byte.x47].
Definition file_image : Image := mkImage 1 1 [16711680%Z].
Definition web_image : Image := mkImage 1 1 [255%Z].

Definition TypeError : exn :=
  Exn "TypeError" "stat: path should be string, bytes, os.PathLike or integer".
Definition FileNotFoundError : exn :=
  Exn "FileNotFoundError" "No such file or directory".
Definition ConnectionError : exn :=
  Exn "ConnectionError" "Max retries exceeded".
Definition UnidentifiedImageError : exn :=
  Exn "UnidentifiedImageError" "cannot identify image file".

(** A disk on which [local] is the one path that exists, holding the
    picture [file_image]; values that are no path make [os.stat] raise. *)
Definition disk_exists (local : string) (p : pyval) : outcome bool :=
  match p with
  | PStr s => Ret (String.eqb s local)
  | PBytes _ | PInt _ | PBool _ => Ret false
  | _ => Raise TypeError
  end.

Definition disk_open (local : string) (fp : pyval) : outcome Image :=
  match fp with
  | PStr s => if String.eqb s local then Ret file_image
              else Raise FileNotFoundError
  | _ => Raise FileNotFoundError
  end.

(** A server that answers [x_url] alone, with [png_content]. *)
Definition web_get (url : string) : outcome (list Byte.byte) :=
  if String.eqb url x_url then Ret png_content else Raise ConnectionError.

Definition decode_bytes (content : list Byte.byte) : outcome Image :=
  match content with
  | [] => Raise UnidentifiedImageError
  | _ => Ret web_image
  end.

(** The remote service answers [result]; [local] exists on disk. *)
Definition demo_world (local : string) (result : pyval) : World :=
  {| Client := fun _ _ => Ret tt;
     predict := fun _ _ _ _ => Ret result;
     os_path_exists := fun _ => disk_exists local;
     Image_open := fun _ => disk_open local;
     requests_get := fun _ => web_get;
     Image_open_bytes := fun _ => decode_bytes |}.

(** A world whose remote service is out of reach. *)
Definition offline_world : World :=
  {| Client := fun _ _ => Raise ConnectionError;
     predict := fun _ _ _ _ => Raise ConnectionError;
     os_path_exists := fun _ => disk_exists out_png;
     Image_open := fun _ => disk_open out_png;
     requests_get := fun _ _ => Raise ConnectionError;
     Image_open_bytes := fun _ => decode_bytes |}.

(** The candidate of a mapping as the source resolves it at lines 37-39,
    58-60 and 66-68: an existence probe, then [Image.open]. *)
Definition resolve_path (w : World) (image_path : pyval) : M (option pyval) :=
  b <- path_exists w image_path;;
  if b then (v <- open_image w image_path;; ret (Some v)) else ret None.

(** The candidate of a bare text as the source resolves it at lines 42-47
    and 72-76: an existence probe, then the scheme test and the fetch. *)
Definition resolve_text (w : World) (s : string) : M (option pyval) :=
  b <- path_exists w (PStr s);;
  if b then (v <- open_image w (PStr s);; ret (Some v))
  else if startswith_http s then (v <- fetch_image w s;; ret (Some v))
  else ret None.

(** The retry as the specification words it (4.1, step 1.b): the first
    entry alone, with the mapping extraction and the text resolution of
    the scan, fetch included, and without the capability check.  It is
    compared with [fallback], the retry of the source. *)
Definition fallback_as_specified (w : World) (items : list pyval)
    : M (option pyval) :=
  match items with
  | [] => ret None
  | first_item :: _ =>
      match dict_image first_item with
      | Some image_path => resolve_path w image_path
      | None =>
          match first_item with
          | PStr s => resolve_text w s
          | _ => ret None
          end
      end
  end.

(** A server that refuses the first connection and answers from the
    second on. *)
Definition is_get (ev : event) : bool :=
  match ev with
  | EvGet _ => true
  | _ => false
  end.

Definition flaky_get (h : history) (url : string) : outcome (list Byte.byte) :=
  if existsb is_get h then web_get url else Raise ConnectionError.

Definition flaky_world (result : pyval) : World :=
  {| Client := fun _ _ => Ret tt;
     predict := fun _ _ _ _ => Ret result;
     os_path_exists := fun _ => disk_exists out_png;
     Image_open := fun _ => disk_open out_png;
     requests_get := flaky_get;
     Image_open_bytes := fun _ => decode_bytes |}.

(** No probe of the chain matches [v]: it is no text, no mapping with an
    [image] key, and it has no [save] attribute. *)
Definition entry_unrecognized (v : pyval) : bool :=
  match v with
  | PStr _ => false
  | _ =>
      match dict_image v with
      | Some _ => false
      | None => negb (hasattr_save v)
      end
  end.

(** A result none of whose shapes leads to a candidate: a value that no
    probe matches, or a list of such values (the empty list is one). *)
Definition unrecognized (result : pyval) : bool :=
  match result with
  | PList items => forallb entry_unrecognized items
  | _ => entry_unrecognized result
  end.

(** Entry [item] never gives an image: whatever the history, its
    processing raises or reaches the end of the loop body. *)
Definition yields_nothing (w : World) (item : pyval) : Prop :=
  forall h v, fst (scan_item w item h) <> Ret (Some v).

(** Entry [item] fails whenever it is processed. *)
Definition always_fails (w : World) (item : pyval) : Prop :=
  forall h, exists e, fst (scan_item w item h) = Raise e.

(** Entry [item] gives [v] whenever it is processed. *)
Definition always_yields (w : World) (item v : pyval) : Prop :=
  forall h, fst (scan_item w item h) = Ret (Some v).

(** The local file [p] is stable: it is there and decodes to [im] at
    every moment. *)
Definition stable_file (w : World) (p : string) (im : Image) : Prop :=
  forall h, os_path_exists w h (PStr p) = Ret true
            /\ Image_open w h (PStr p) = Ret im.

(** [v] is the path [p], as a text or under the [image] key of a
    mapping. *)
Definition names_file (v : pyval) (p : string) : Prop :=
  v = PStr p \/ dict_image v = Some (PStr p).

(** A result whose reference to the local file [p] is the first thing
    that can give an image: the text or the mapping itself, or a list in
    which such an entry, at any position, comes after entries that never
    give an image. *)
Definition references_file (w : World) (result : pyval) (p : string) : Prop :=
  names_file result p
  \/ exists pre item rest,
       result = PList (pre ++ item :: rest)
       /\ Forall (yields_nothing w) pre
       /\ names_file item p.

(** ** Where the calls of the probes come from *)

(** The candidate an entry, or a whole result that is no list, offers to
    the file system: the [image] value of a mapping, or the text itself. *)
Definition candidate_of (v : pyval) : list pyval :=
  match dict_image v with
  | Some image_path => [image_path]
  | None =>
      match v with
      | PStr _ => [v]
      | _ => []
      end
  end.

Definition candidates (result : pyval) : list pyval :=
  match result with
  | PList items => flat_map candidate_of items
  | _ => candidate_of result
  end.

(** The bare texts of a result, the only values that can be fetched. *)
Definition text_of (v : pyval) : list string :=
  match v with
  | PStr s => [s]
  | _ => []
  end.

Definition text_candidates (result : pyval) : list string :=
  match result with
  | PList items => flat_map text_of items
  | _ => text_of result
  end.

(** An event the probes may produce when they work on the paths [paths]
    and the texts [urls]: no remote call, file-system calls on [paths]
    only, fetches of the [urls] with a network scheme only. *)
Definition probe_event_ok (paths : list pyval) (urls : list string)
    (ev : event) : Prop :=
  match ev with
  | EvClient _ | EvPredict _ _ _ => False
  | EvExists p | EvImageOpen p => p ∈ paths
  | EvGet url => url ∈ urls /\ startswith_http url = true
  | EvImageOpenBytes _ | EvPrint _ => True
  end.

(** Computation [m] only adds events to the history, all of them in [P]. *)
Definition emits {A} (P : event -> Prop) (m : M A) : Prop :=
  forall h, exists l, snd (m h) = (l ++ h)%list /\ Forall P l.

(** The file system does not change: the existence probe and
    [Image.open] answer the same at every moment. *)
Definition stable_disk (w : World) : Prop :=
  forall h1 h2 p,
    os_path_exists w h1 p = os_path_exists w h2 p
    /\ Image_open w h1 p = Image_open w h2 p.

(** A disk on which [local] exists and is no picture. *)
Definition corrupt_world (local : string) (result : pyval) : World :=
  {| Client := fun _ _ => Ret tt;
     predict := fun _ _ _ _ => Ret result;
     os_path_exists := fun _ => disk_exists local;
     Image_open := fun _ _ => Raise UnidentifiedImageError;
     requests_get := fun _ => web_get;
     Image_open_bytes := fun _ => decode_bytes |}.

(** The two calls that reach the remote service. *)
Definition is_remote (ev : event) : bool :=
  match ev with
  | EvClient _ | EvPredict _ _ _ => true
  | _ => false
  end.

(** ** The function with fallible diagnostics and all of Python's exceptions *)

(** The embedding above keeps two conventions: [print] does not fail and
    every raised object is an [Exception].  The module below drops both
    for the question of what can leave [generate_image]: [print] is one
    more collaborator, which may raise (a closed or broken [stdout], an
    object whose text cannot be produced), and a raised object is either
    an instance of [Exception] or one of the exceptions outside it
    ([KeyboardInterrupt], [SystemExit], ...), which [except Exception]
    does not catch.  The function is the same, line for line. *)
Module Fallible.

Inductive raised :=
| Exc     (e : exn)
| BaseExc (e : exn).

Inductive outcome (A : Type) :=
| Ret   (a : A)
| Raise (r : raised).
Arguments Ret {A} a.
Arguments Raise {A} r.

Record World := mkWorld {
  Client           : history -> string -> outcome unit;
  predict          : history -> string -> string -> pyval -> outcome pyval;
  os_path_exists   : history -> pyval -> outcome bool;
  Image_open       : history -> pyval -> outcome Image;
  requests_get     : history -> string -> outcome (list Byte.byte);
  Image_open_bytes : history -> list Byte.byte -> outcome Image;
  builtins_print   : history -> log_msg -> outcome unit
}.

Definition M (A : Type) : Type := history -> outcome A * history.

Definition ret {A} (a : A) : M A := fun h => (Ret a, h).

Definition bind {A B} (m : M A) (k : A -> M B) : M B :=
  fun h =>
    match m h with
    | (Ret a, h') => k a h'
    | (Raise r, h') => (Raise r, h')
    end.

(** [try: m  except Exception as e: handler e]: an exception outside
    [Exception] passes through. *)
Definition try_except {A} (m : M A) (handler : exn -> M A) : M A :=
  fun h =>
    match m h with
    | (Ret a, h') => (Ret a, h')
    | (Raise (Exc e), h') => handler e h'
    | (Raise (BaseExc e), h') => (Raise (BaseExc e), h')
    end.

Definition call {A} (ev : event) (answer : history -> outcome A) : M A :=
  fun h => (answer h, ev :: h).

Declare Scope pyio_scope.
Notation "x <- c1 ;; c2" := (bind c1 (fun x => c2))
  (at level 100, c1 at next level, right associativity) : pyio_scope.
Notation "c1 ;;; c2" := (bind c1 (fun _ => c2))
  (at level 100, right associativity) : pyio_scope.
Local Open Scope pyio_scope.

Section Normalizer.

Variable w : World.

Definition print (m : log_msg) : M unit :=
  call (EvPrint m) (fun h => builtins_print w h m).

Definition path_exists (p : pyval) : M bool :=
  call (EvExists p) (fun h => os_path_exists w h p).

Definition open_image (fp : pyval) : M pyval :=
  im <- call (EvImageOpen fp) (fun h => Image_open w h fp);;
  ret (PImage im).

Definition fetch_image (url : string) : M pyval :=
  content <- call (EvGet url) (fun h => requests_get w h url);;
  im <- call (EvImageOpenBytes content) (fun h => Image_open_bytes w h content);;
  ret (PImage im).

(** Lines 35-49. *)
Definition scan_item (item : pyval) : M (option pyval) :=
  match dict_image item with
  | Some image_path =>
      b <- path_exists image_path;;
      if b then (v <- open_image image_path;; ret (Some v)) else ret None
  | None =>
      match item with
      | PStr s =>
          b <- path_exists item;;
          if b then (v <- open_image item;; ret (Some v))
          else if startswith_http s then (v <- fetch_image s;; ret (Some v))
          else ret None
      | _ => if hasattr_save item then ret (Some item) else ret None
      end
  end.

(** Lines 33-52.  The [print] of line 51 runs in the handler: when it
    raises, the exception leaves the loop. *)
Fixpoint scan (i : nat) (items : list pyval) : M (option pyval) :=
  match items with
  | [] => ret None
  | item :: rest =>
      r <- try_except (scan_item item)
             (fun e => print (DebugItemError i e);;; ret None);;
      match r with
      | Some v => ret (Some v)
      | None => scan (S i) rest
      end
  end.

(** Lines 55-62. *)
Definition fallback (items : list pyval) : M (option pyval) :=
  match items with
  | [] => ret None
  | first_item :: _ =>
      match dict_image first_item with
      | Some image_path =>
          b <- path_exists image_path;;
          if b then (v <- open_image image_path;; ret (Some v)) else ret None
      | None =>
          match first_item with
          | PStr _ =>
              b <- path_exists first_item;;
              if b then (v <- open_image first_item;; ret (Some v)) else ret None
          | _ => ret None
          end
      end
  end.

(** Lines 32-80. *)
Definition probe (result : pyval) : M (option pyval) :=
  match result with
  | PList items =>
      r <- scan 0 items;;
      match r with
      | Some v => ret (Some v)
      | None => fallback items
      end
  | _ =>
      match dict_image result with
      | Some image_path =>
          b <- path_exists image_path;;
          if b then (v <- open_image image_path;; ret (Some v)) else ret None
      | None =>
          match result with
          | PStr s =>
              b <- path_exists result;;
              if b then (v <- open_image result;; ret (Some v))
              else if startswith_http s then (v <- fetch_image s;; ret (Some v))
              else ret None
          | _ => if hasattr_save result then ret (Some result) else ret None
          end
      end
  end.

(** Lines 9-88.  The [print] of line 87 runs in the outer handler,
    outside every [try]. *)
Definition generate_image (prompt negative_prompt : string)
    (guidance_scale : pyval) : M pyval :=
  if negb (str_truthy (strip prompt)) then ret PNone
  else
    try_except
      (call (EvClient "stabilityai/stable-diffusion")
            (fun h => Client w h "stabilityai/stable-diffusion");;;
       result <- call (EvPredict prompt negative_prompt guidance_scale)
                   (fun h => predict w h prompt negative_prompt guidance_scale);;
       print (DebugResultType result);;;
       print (DebugResult result);;;
       r <- probe result;;
       match r with
       | Some v => ret v
       | None => print DebugNoValid;;; ret PNone
       end)
      (fun e => print (DebugFullError e);;; ret PNone).

End Normalizer.

(** The answer [o] is no exception from outside [Exception]. *)
Definition tame {A} (o : outcome A) : Prop :=
  match o with
  | Raise (BaseExc _) => False
  | _ => True
  end.

(** Whatever a collaborator of [w] raises is an [Exception]. *)
Definition raises_only_Exception (w : World) : Prop :=
  (forall h s, tame (Client w h s))
  /\ (forall h p n g, tame (predict w h p n g))
  /\ (forall h p, tame (os_path_exists w h p))
  /\ (forall h p, tame (Image_open w h p))
  /\ (forall h u, tame (requests_get w h u))
  /\ (forall h c, tame (Image_open_bytes w h c))
  /\ (forall h m, tame (builtins_print w h m)).



End Fallible.

(** A world of the first embedding seen as a world of [Fallible]: the
    same answers, every raised object an [Exception], a [print] that
    goes through. *)
Definition lift_outcome {A} (o : outcome A) : Fallible.outcome A :=
  match o with
  | Ret a => Fallible.Ret a
  | Raise e => Fallible.Raise (Fallible.Exc e)
  end.

Definition lift_run {A} (r : outcome A * history)
    : Fallible.outcome A * history :=
  (lift_outcome (fst r), snd r).

Definition lift_world (w : World) : Fallible.World :=
  {| Fallible.Client := fun h s => lift_outcome (Client w h s);
     Fallible.predict := fun h p n g => lift_outcome (predict w h p n g);
     Fallible.os_path_exists := fun h p => lift_outcome (os_path_exists w h p);
     Fallible.Image_open := fun h p => lift_outcome (Image_open w h p);
     Fallible.requests_get := fun h u => lift_outcome (requests_get w h u);
     Fallible.Image_open_bytes :=
       fun h c => lift_outcome (Image_open_bytes w h c);
     Fallible.builtins_print := fun _ _ => Fallible.Ret tt |}.

(** The terminal is gone: every [print] raises [BrokenPipeError]; the
    service is out of reach. *)
Definition BrokenPipeError : exn := Exn "BrokenPipeError" "Broken pipe".



(** A world in which the log of the entries cannot be written, the
    other prints go through, and nothing from outside [Exception] is
    raised; the service answers a list whose first entry makes the
    existence probe raise and whose second is the path of a picture. *)
Definition steady_world : Fallible.World :=
  {| Fallible.Client := fun _ _ => Fallible.Ret tt;
     Fallible.predict :=
       fun _ _ _ _ =>
         Fallible.Ret (PList [PDict {[ "image" := PNone ]}; PStr out_png]);
     Fallible.os_path_exists :=
       fun _ p =>
         match p with
         | PStr _ => Fallible.Ret true
         | _ => Fallible.Raise (Fallible.Exc TypeError)
         end;
     Fallible.Image_open := fun _ _ => Fallible.Ret file_image;
     Fallible.requests_get :=
       fun _ _ => Fallible.Raise (Fallible.Exc ConnectionError);
     Fallible.Image_open_bytes :=
       fun _ _ => Fallible.Raise (Fallible.Exc UnidentifiedImageError);
     Fallible.builtins_print :=
       fun _ m =>
         match m with
         | DebugItemError _ _ => Fallible.Raise (Fallible.Exc BrokenPipeError)
         | _ => Fallible.Ret tt
         end |}.

(** * Properties *)

(** ** Small checks of the helpers *)

Example dict_image_ex :
  dict_image (PDict {[ "image" := PStr "/tmp/out.png" ]}) = Some (PStr "/tmp/out.png").
Proof. vm_compute. reflexivity. Qed.

Example hasattr_ex : hasattr_save (PObj ["load"; "save"]) = true.
Proof. vm_compute. reflexivity. Qed.

Example strip_ex : strip "  a cat  " = "a cat".
Proof. reflexivity. Qed.

Example startswith_ex :
  startswith_http "https://example.com/x.png" = true /\
  startswith_http "/tmp/http://x" = false.
Proof. split; reflexivity. Qed.

(** ** Running the monad: unfolding tactics *)

Ltac unfold_py :=
  unfold open_image, fetch_image, path_exists, print, call, try_except,
    bind, ret in *.

(** Case analysis on every oracle answer and every test in sight. *)
Ltac crush_py :=
  unfold_py; intros; repeat (case_match; simplify_eq/=);
  simplify_eq/=; try done.

(** ** What a probe can return *)

Lemma scan_item_returns w item h v h' :
  scan_item w item h = (Ret (Some v), h') -> hasattr_save v = true.
Proof.
  unfold scan_item. intros Hrun.
  destruct (dict_image item) as [image_path|] eqn:Hd.
  - crush_py.
  - destruct item; crush_py.
Qed.

Lemma scan_returns w items : forall i h v h',
  scan w i items h = (Ret (Some v), h') -> hasattr_save v = true.
Proof.
  induction items as [|item rest IH]; intros i h v h'; simpl.
  - unfold ret. intros [=].
  - unfold bind at 1, try_except.
    destruct (scan_item w item h) as [[[r|]|e] h1] eqn:Hitem; simpl.
    + unfold ret. intros [= -> ->]. eauto using scan_item_returns.
    + apply IH.
    + apply IH.
Qed.

(** The loop never raises: the handler of each iteration returns. *)
Lemma scan_total w items : forall i h,
  exists r h', scan w i items h = (Ret r, h').
Proof.
  induction items as [|item rest IH]; intros i h; simpl.
  - unfold ret. eauto.
  - unfold bind at 1, try_except.
    destruct (scan_item w item h) as [[[r|]|e] h1] eqn:Hitem; simpl;
      unfold ret; eauto.
Qed.

Lemma fallback_returns w items h v h' :
  fallback w items h = (Ret (Some v), h') -> hasattr_save v = true.
Proof.
  unfold fallback. destruct items as [|first_item rest].
  - unfold ret. intros [=].
  - destruct (dict_image first_item) eqn:Hd; [|destruct first_item];
      crush_py.
Qed.

Lemma probe_returns w result h v h' :
  probe w result h = (Ret (Some v), h') -> hasattr_save v = true.
Proof.
  destruct result; simpl;
    try (destruct (_ !! _) eqn:Hd); try (crush_py; fail).
  unfold bind at 1.
  destruct (scan w 0 items h) as [[[r|]|e] h1] eqn:Hscan.
  - unfold ret. intros [= -> ->]. eauto using scan_returns.
  - apply fallback_returns.
  - intros [=].
Qed.

Lemma lstrip_whitespace_only s :
  whitespace_only s = true -> lstrip s = EmptyString.
Proof.
  induction s as [|c s IH]; simpl; [done|].
  intros [Hc Hs]%andb_prop. rewrite Hc. auto.
Qed.

Lemma strip_whitespace_only s :
  whitespace_only s = true -> strip s = EmptyString.
Proof. intros Hs. unfold strip. by rewrite lstrip_whitespace_only. Qed.

Lemma rstrip_empty s : rstrip s = EmptyString -> whitespace_only s = true.
Proof.
  induction s as [|c s IH]; simpl; [done|].
  destruct (rstrip s); [|done].
  destruct (py_isspace c); [auto | done].
Qed.

Lemma lstrip_suffix_whitespace s :
  whitespace_only (lstrip s) = true -> whitespace_only s = true.
Proof.
  induction s as [|c s IH]; simpl; [done|].
  destruct (py_isspace c) eqn:Hc; simpl; [auto|].
  by rewrite Hc.
Qed.

(** The guard of line 13 fires exactly on the prompts made of white
    space only. *)
Lemma strip_falsy_iff s :
  str_truthy (strip s) = false <-> whitespace_only s = true.
Proof.
  split.
  - intros Hs. apply lstrip_suffix_whitespace, rstrip_empty.
    unfold strip in Hs. by destruct (rstrip (lstrip s)).
  - intros Hs. by rewrite strip_whitespace_only.
Qed.

Lemma generate_image_run w h prompt negative_prompt guidance_scale result :
  remote_returns w h prompt negative_prompt guidance_scale result ->
  generate_image w prompt negative_prompt guidance_scale h
  = finish (probe w result
              (after_predict h prompt negative_prompt guidance_scale result)).
Proof.
  intros (Hprompt & Hclient & Hpredict).
  unfold generate_image.
  destruct (str_truthy (strip prompt)) eqn:Hs; simpl.
  2: { apply strip_falsy_iff in Hs. congruence. }
  unfold try_except at 1, bind at 1, call at 1. fold space_name.
  rewrite Hclient.
  unfold bind at 1, call at 1. rewrite Hpredict.
  unfold bind at 1, print at 1. unfold bind at 1, print at 1.
  unfold bind at 1. fold (after_predict h prompt negative_prompt guidance_scale result).
  destruct (probe w result _) as [[[v|]|e] h1]; reflexivity.
Qed.

Example offline_run :
  generate_image offline_world "a cat" "" (PInt 9) []
  = (Ret PNone, [EvPrint (DebugFullError ConnectionError); EvClient space_name]).
Proof. reflexivity. Qed.

Example scenario_list_of_dict :
  fst (generate_image
         (demo_world out_png (PList [PDict {[ "image" := PStr out_png ]}]))
         "a cat" "" (PInt 9) [])
  = Ret (PImage file_image).
Proof. vm_compute. reflexivity. Qed.

Example scenario_url :
  fst (generate_image (demo_world out_png (PStr x_url)) "a cat" "" (PInt 9) [])
  = Ret (PImage web_image).
Proof. vm_compute. reflexivity. Qed.

Example scenario_foo_bar :
  fst (generate_image (demo_world out_png (PList [PDict {[ "foo" := PStr "bar" ]}]))
         "a cat" "" (PInt 9) [])
  = Ret PNone.
Proof. vm_compute. reflexivity. Qed.

(** C4.  A prompt that is empty or made of white space only gives [None]
    and leaves the history as it was: no client is constructed, [predict]
    is not called, nothing is printed or probed. *)
Theorem generate_image_blank_prompt w prompt negative_prompt guidance_scale h :
  whitespace_only prompt = true ->
  generate_image w prompt negative_prompt guidance_scale h = (Ret PNone, h).
Proof.
  intros Hblank. unfold generate_image.
  by rewrite (strip_whitespace_only _ Hblank).
Qed.

Lemma generate_image_blank_prompt_witness :
  whitespace_only "   " = true
  /\ generate_image (demo_world out_png (PStr out_png)) "   " "" (PInt 9) []
     = (Ret PNone, []).
Proof.
  split; [reflexivity|].
  apply (generate_image_blank_prompt (demo_world out_png (PStr out_png))).
  reflexivity.
Defined.

(** ** Candidates taken from a mapping *)

Lemma scan_item_dict w d image_path :
  d !! "image" = Some image_path ->
  scan_item w (PDict d) = resolve_path w image_path.
Proof. intros Hd. unfold scan_item, resolve_path. simpl. by rewrite Hd. Qed.

Lemma probe_dict w d image_path :
  d !! "image" = Some image_path ->
  probe w (PDict d) = resolve_path w image_path.
Proof. intros Hd. unfold probe, resolve_path. simpl. by rewrite Hd. Qed.

Lemma fallback_dict w d image_path rest :
  d !! "image" = Some image_path ->
  fallback w (PDict d :: rest) = resolve_path w image_path.
Proof. intros Hd. unfold fallback, resolve_path. simpl. by rewrite Hd. Qed.

Lemma scan_item_text w s : scan_item w (PStr s) = resolve_text w s.
Proof. reflexivity. Qed.

Lemma probe_text w s : probe w (PStr s) = resolve_text w s.
Proof. reflexivity. Qed.

(** C2, as stated, fails.  The service answers the mapping
    [{"image": "https://example.com/x.png"}]; the address is no local
    path and the server would deliver a picture.  As a bare text the
    address is fetched and decoded; taken from the mapping it is only
    probed on the file system, nothing is fetched and the call gives
    [None].  The same happens to the mapping as an entry of a list. *)
Lemma mapping_url_is_not_fetched :
  let bare := PStr x_url in
  let mapping := PDict {[ "image" := PStr x_url ]} in
  let h0 r := after_predict [] "a cat" "" (PInt 9) r in
  startswith_http x_url = true
  /\ generate_image (demo_world out_png bare) "a cat" "" (PInt 9) []
     = (Ret (PImage web_image),
        EvImageOpenBytes png_content :: EvGet x_url
          :: EvExists (PStr x_url) :: h0 bare)
  /\ generate_image (demo_world out_png mapping) "a cat" "" (PInt 9) []
     = (Ret PNone,
        EvPrint DebugNoValid :: EvExists (PStr x_url) :: h0 mapping)
  /\ fst (generate_image (demo_world out_png (PList [mapping]))
            "a cat" "" (PInt 9) [])
     = Ret PNone
  /\ scan_item (demo_world out_png mapping) mapping []
     <> scan_item (demo_world out_png mapping) bare [].
Proof. vm_compute. repeat split; try reflexivity. discriminate. Qed.

(** C2, amended.  A candidate taken from the [image] field of a mapping
    is resolved the same way at the three places that read it (entry of
    the scan, first entry of the retry, whole result), and that way is
    local only: one existence probe, then [Image.open] when the probe
    says yes.  The history gains these one or two events and never a
    fetch, whatever the text begins with. *)
Theorem mapping_candidate_is_local_only w d image_path h :
  d !! "image" = Some image_path ->
  let run := scan_item w (PDict d) h in
  let h1 := EvExists image_path :: h in
  probe w (PDict d) h = run
  /\ (forall rest, fallback w (PDict d :: rest) h = run)
  /\ run = match os_path_exists w h image_path with
           | Ret true =>
               (match Image_open w h1 image_path with
                | Ret im => Ret (Some (PImage im))
                | Raise e => Raise e
                end, EvImageOpen image_path :: h1)
           | Ret false => (Ret None, h1)
           | Raise e => (Raise e, h1)
           end.
Proof.
  intros Hd run h1. subst run h1.
  rewrite (scan_item_dict _ _ _ Hd), (probe_dict _ _ _ Hd).
  split; [reflexivity|]. split.
  - intros rest. by rewrite (fallback_dict _ _ _ _ Hd).
  - unfold resolve_path. unfold_py.
    destruct (os_path_exists w h image_path) as [[|]|e]; try reflexivity.
    by destruct (Image_open w _ image_path).
Qed.

Lemma mapping_candidate_is_local_only_witness :
  let w := demo_world out_png (PDict {[ "image" := PStr x_url ]}) in
  probe w (PDict {[ "image" := PStr x_url ]}) []
  = (Ret None, [EvExists (PStr x_url)]).
Proof.
  intros w.
  destruct (mapping_candidate_is_local_only w {[ "image" := PStr x_url ]}
              (PStr x_url) []) as (Hprobe & _ & Hrun).
  - reflexivity.
  - rewrite Hprobe, Hrun. reflexivity.
Defined.

(** ** The retry on the first entry *)

Lemma fallback_text w s rest :
  fallback w (PStr s :: rest) = resolve_path w (PStr s).
Proof. reflexivity. Qed.

Lemma probe_list w items h h1 :
  scan w 0 items h = (Ret None, h1) ->
  probe w (PList items) h = fallback w items h1.
Proof. intros Hscan. simpl. unfold bind. by rewrite Hscan. Qed.

(** C3, as stated, fails.  The service answers the one-entry list
    [["https://example.com/x.png"]]; the address is no local path and the
    server refuses the first connection only.  The scan fetches once,
    fails and logs.  A retry that resolved the text as the scan does
    would fetch again and get the picture; the retry of the source probes
    the file system and stops: no second fetch, and the call gives
    [None]. *)
Lemma fallback_does_not_fetch :
  let items := [PStr x_url] in
  let w := flaky_world (PList items) in
  let h0 := after_predict [] "a cat" "" (PInt 9) (PList items) in
  let h1 := EvPrint (DebugItemError 0 ConnectionError)
              :: EvGet x_url :: EvExists (PStr x_url) :: h0 in
  scan w 0 items h0 = (Ret None, h1)
  /\ fallback w items h1 = (Ret None, EvExists (PStr x_url) :: h1)
  /\ fallback_as_specified w items h1
     = (Ret (Some (PImage web_image)),
        EvImageOpenBytes png_content :: EvGet x_url
          :: EvExists (PStr x_url) :: h1)
  /\ generate_image w "a cat" "" (PInt 9) []
     = (Ret PNone, EvPrint DebugNoValid :: EvExists (PStr x_url) :: h1).
Proof. vm_compute. repeat split; reflexivity. Qed.

(** C3, amended.  When the scan of a list ends without an image, the
    retry looks at the first entry alone and only on the file system: a
    mapping with an [image] key is resolved as in the scan; a text is
    probed for existence and opened when it exists, and is not fetched
    even when it is an address; any other first entry, an image object
    included, and the empty list give nothing and touch nothing. *)
Theorem fallback_is_local_only w items h h1 :
  scan w 0 items h = (Ret None, h1) ->
  probe w (PList items) h = fallback w items h1
  /\ fallback w items h1 =
     match items with
     | [] => (Ret None, h1)
     | first_item :: _ =>
         match dict_image first_item, first_item with
         | Some _, _ => scan_item w first_item h1
         | None, PStr s =>
             match os_path_exists w h1 (PStr s) with
             | Ret true => scan_item w first_item h1
             | Ret false => (Ret None, EvExists (PStr s) :: h1)
             | Raise e => (Raise e, EvExists (PStr s) :: h1)
             end
         | None, _ => (Ret None, h1)
         end
     end.
Proof.
  intros Hscan. split; [by apply probe_list|].
  destruct items as [|first_item rest]; [reflexivity|].
  unfold fallback, scan_item.
  destruct (dict_image first_item) as [image_path|] eqn:Hd; [reflexivity|].
  destruct first_item; try reflexivity.
  unfold_py. by destruct (os_path_exists w h1 (PStr s)) as [[|]|e].
Qed.

Lemma fallback_is_local_only_witness :
  let items := [PStr x_url] in
  let w := flaky_world (PList items) in
  let h0 := after_predict [] "a cat" "" (PInt 9) (PList items) in
  let h1 := EvPrint (DebugItemError 0 ConnectionError)
              :: EvGet x_url :: EvExists (PStr x_url) :: h0 in
  probe w (PList items) h0 = (Ret None, EvExists (PStr x_url) :: h1).
Proof.
  intros items w h0 h1.
  destruct (fallback_is_local_only w items h0 h1) as [Hprobe Hfb].
  - reflexivity.
  - rewrite Hprobe, Hfb. reflexivity.
Defined.

(** ** The scan of a list *)

Lemma scan_step_raise w i item rest h e h1 :
  scan_item w item h = (Raise e, h1) ->
  scan w i (item :: rest) h
  = scan w (S i) rest (EvPrint (DebugItemError i e) :: h1).
Proof. intros Hitem. simpl. unfold_py. by rewrite Hitem. Qed.

Lemma scan_step_none w i item rest h h1 :
  scan_item w item h = (Ret None, h1) ->
  scan w i (item :: rest) h = scan w (S i) rest h1.
Proof. intros Hitem. simpl. unfold_py. by rewrite Hitem. Qed.

Lemma scan_step_some w i item rest h v h1 :
  scan_item w item h = (Ret (Some v), h1) ->
  scan w i (item :: rest) h = (Ret (Some v), h1).
Proof. intros Hitem. simpl. unfold_py. by rewrite Hitem. Qed.

(** Entries that give nothing are passed over, one after the other. *)
Lemma scan_skips w pre rest :
  Forall (yields_nothing w) pre ->
  forall i h, exists h1,
    scan w i (pre ++ rest) h = scan w (i + length pre) rest h1.
Proof.
  induction 1 as [|item pre Hitem _ IH]; intros i h; simpl.
  - exists h. by rewrite Nat.add_0_r.
  - destruct (scan_item w item h) as [[[v|]|e] hx] eqn:Hrun.
    + destruct (Hitem h v). by rewrite Hrun.
    + destruct (IH (S i) hx) as [h1 Hrest]. exists h1.
      rewrite <- Nat.add_succ_comm, <- Hrest.
      by apply scan_step_none.
    + destruct (IH (S i) (EvPrint (DebugItemError i e) :: hx)) as [h1 Hrest].
      exists h1. rewrite <- Nat.add_succ_comm, <- Hrest.
      by apply scan_step_raise.
Qed.

Lemma always_fails_yields_nothing w item :
  always_fails w item -> yields_nothing w item.
Proof. intros Hfail h v. destruct (Hfail h) as [e ->]. discriminate. Qed.

(** The first entry that gives an image decides the scan. *)
Lemma scan_first_yield w pre good rest v :
  Forall (yields_nothing w) pre ->
  always_yields w good v ->
  forall i h, fst (scan w i (pre ++ good :: rest) h) = Ret (Some v).
Proof.
  intros Hpre Hgood i h.
  destruct (scan_skips w pre (good :: rest) Hpre i h) as [h1 ->].
  specialize (Hgood h1).
  destruct (scan_item w good h1) as [r hx] eqn:Hrun. simpl in Hgood. subst r.
  by rewrite (scan_step_some _ _ _ _ _ _ _ Hrun).
Qed.

Lemma generate_image_list_yield w pre good rest v
    prompt negative_prompt guidance_scale h :
  remote_returns w h prompt negative_prompt guidance_scale
    (PList (pre ++ good :: rest)) ->
  Forall (yields_nothing w) pre ->
  always_yields w good v ->
  fst (generate_image w prompt negative_prompt guidance_scale h) = Ret v.
Proof.
  intros Hremote Hpre Hgood.
  rewrite (generate_image_run _ _ _ _ _ _ Hremote). simpl.
  pose proof (scan_first_yield w pre good rest v Hpre Hgood 0
                (after_predict h prompt negative_prompt guidance_scale
                   (PList (pre ++ good :: rest)))) as Hscan.
  unfold bind.
  destruct (scan w 0 (pre ++ good :: rest) _) as [r hx].
  simpl in Hscan. by subst r.
Qed.

Lemma stable_mapping_yields w d p im :
  d !! "image" = Some (PStr p) ->
  stable_file w p im ->
  always_yields w (PDict d) (PImage im).
Proof.
  intros Hd Hfile h. rewrite (scan_item_dict _ _ _ Hd).
  unfold resolve_path. unfold_py.
  destruct (Hfile h) as [-> _]. by destruct (Hfile (EvExists (PStr p) :: h)) as [_ ->].
Qed.

Lemma stable_text_yields w p im :
  stable_file w p im -> always_yields w (PStr p) (PImage im).
Proof.
  intros Hfile h. unfold scan_item. simpl. unfold_py.
  destruct (Hfile h) as [-> _]. by destruct (Hfile (EvExists (PStr p) :: h)) as [_ ->].
Qed.

(** C5, as stated, fails.  The list holds a mapping whose [image] is the
    existing, decodable file [/tmp/out.png], but an image object comes
    first: the scan accepts that object and the file is never opened. *)
Lemma earlier_entry_wins_over_file :
  let mapping := PDict {[ "image" := PStr out_png ]} in
  let result := PList [PImage web_image; mapping] in
  let w := demo_world out_png result in
  stable_file w out_png file_image
  /\ generate_image w "a cat" "" (PInt 9) []
     = (Ret (PImage web_image), after_predict [] "a cat" "" (PInt 9) result)
  /\ PImage web_image <> PImage file_image.
Proof.
  simpl. split; [|split].
  - intros h. split; reflexivity.
  - vm_compute. reflexivity.
  - discriminate.
Qed.

(** C5, amended.  The result is a list; one of its entries is a mapping
    whose [image] names a local file that is there and decodes, and no
    entry before it gives an image.  Then [generate_image] returns the
    decoded contents of that file. *)
Theorem first_mapping_file_is_decoded w pre d p rest im
    prompt negative_prompt guidance_scale h :
  remote_returns w h prompt negative_prompt guidance_scale
    (PList (pre ++ PDict d :: rest)) ->
  Forall (yields_nothing w) pre ->
  d !! "image" = Some (PStr p) ->
  stable_file w p im ->
  fst (generate_image w prompt negative_prompt guidance_scale h)
  = Ret (PImage im).
Proof.
  intros Hremote Hpre Hd Hfile.
  eapply generate_image_list_yield; eauto using stable_mapping_yields.
Qed.

Lemma first_mapping_file_is_decoded_witness :
  let result :=
    PList ([PDict {[ "foo" := PStr "bar" ]}; PStr "/tmp/missing.png"]
           ++ PDict {[ "image" := PStr out_png ]} :: [PImage web_image]) in
  fst (generate_image (demo_world out_png result) "a cat" "" (PInt 9) [])
  = Ret (PImage file_image).
Proof.
  intros result.
  apply (first_mapping_file_is_decoded (demo_world out_png result)
           [PDict {[ "foo" := PStr "bar" ]}; PStr "/tmp/missing.png"]
           {[ "image" := PStr out_png ]} out_png [PImage web_image]).
  - repeat split; reflexivity.
  - repeat constructor; intros h v; vm_compute; discriminate.
  - reflexivity.
  - intros h. split; reflexivity.
Defined.

(** C8.  In the scan, an entry whose processing raises is logged under
    its index and the scan goes on with the next entry; so when every
    entry before a good one fails, the good one still gives its image,
    and that image is what [generate_image] returns. *)
Theorem scan_continues_after_failure w :
  (forall i item rest h e h1,
      scan_item w item h = (Raise e, h1) ->
      scan w i (item :: rest) h
      = scan w (S i) rest (EvPrint (DebugItemError i e) :: h1))
  /\ (forall pre good rest v prompt negative_prompt guidance_scale h,
        remote_returns w h prompt negative_prompt guidance_scale
          (PList (pre ++ good :: rest)) ->
        Forall (always_fails w) pre ->
        always_yields w good v ->
        fst (generate_image w prompt negative_prompt guidance_scale h)
        = Ret v).
Proof.
  split.
  - intros. by apply scan_step_raise.
  - intros pre good rest v prompt negative_prompt guidance_scale h
      Hremote Hpre Hgood.
    eapply generate_image_list_yield; eauto.
    eapply Forall_impl; [exact Hpre|]. apply always_fails_yields_nothing.
Qed.

Lemma scan_continues_after_failure_witness :
  let broken := PDict {[ "image" := PNone ]} in
  let result := PList ([broken; broken] ++ PStr out_png :: []) in
  let w := demo_world out_png result in
  scan w 0 [broken; PStr out_png] []
  = scan w 1 [PStr out_png] [EvPrint (DebugItemError 0 TypeError); EvExists PNone]
  /\ fst (generate_image w "a cat" "" (PInt 9) []) = Ret (PImage file_image).
Proof.
  intros broken result w.
  destruct (scan_continues_after_failure w) as [Hstep Hlater]. split.
  - apply Hstep. reflexivity.
  - apply (Hlater [broken; broken] (PStr out_png) []).
    + repeat split; reflexivity.
    + repeat constructor; intros h; exists TypeError; reflexivity.
    + intros h. reflexivity.
Defined.

(** ** A bare text result *)

(** C6.  The result is a bare text that begins with [http://] or
    [https://] and is no existing local path.  Then the address is
    fetched, once, right after the existence probe; when the fetch
    succeeds and its bytes decode, the decoded picture is returned; when
    the fetch fails, or the bytes do not decode, the failure is printed
    and [None] is returned. *)
Theorem bare_url_is_fetched w s prompt negative_prompt guidance_scale h :
  remote_returns w h prompt negative_prompt guidance_scale (PStr s) ->
  startswith_http s = true ->
  let h0 := after_predict h prompt negative_prompt guidance_scale (PStr s) in
  let h1 := EvGet s :: EvExists (PStr s) :: h0 in
  os_path_exists w h0 (PStr s) = Ret false ->
  generate_image w prompt negative_prompt guidance_scale h
  = match requests_get w (EvExists (PStr s) :: h0) s with
    | Raise e => (Ret PNone, EvPrint (DebugFullError e) :: h1)
    | Ret content =>
        match Image_open_bytes w h1 content with
        | Ret im => (Ret (PImage im), EvImageOpenBytes content :: h1)
        | Raise e =>
            (Ret PNone,
             EvPrint (DebugFullError e) :: EvImageOpenBytes content :: h1)
        end
    end.
Proof.
  intros Hremote Hurl h0 h1 Hmissing. subst h1.
  rewrite (generate_image_run _ _ _ _ _ _ Hremote). fold h0.
  simpl. unfold_py. rewrite Hmissing, Hurl.
  destruct (requests_get w _ s) as [content|e]; [|reflexivity].
  by destruct (Image_open_bytes w _ content).
Qed.

Lemma bare_url_is_fetched_witness :
  generate_image (demo_world out_png (PStr x_url)) "a cat" "" (PInt 9) []
  = (Ret (PImage web_image),
     EvImageOpenBytes png_content :: EvGet x_url :: EvExists (PStr x_url)
       :: after_predict [] "a cat" "" (PInt 9) (PStr x_url)).
Proof.
  rewrite (bare_url_is_fetched (demo_world out_png (PStr x_url)) x_url).
  - reflexivity.
  - repeat split; reflexivity.
  - reflexivity.
  - reflexivity.
Defined.

(** C10.  A text that names an existing local file is opened from the
    disk, also when it begins with [http://] or [https://]: as an entry
    of the scan and as the whole result, the existence probe and
    [Image.open] on the path are the only calls, and no fetch is made.
    As the whole result, the opened picture is returned ([None] when the
    file does not decode). *)
Theorem local_file_before_url w s h :
  startswith_http s = true ->
  os_path_exists w h (PStr s) = Ret true ->
  let h1 := EvImageOpen (PStr s) :: EvExists (PStr s) :: h in
  let opened :=
    match Image_open w (EvExists (PStr s) :: h) (PStr s) with
    | Ret im => Ret (Some (PImage im))
    | Raise e => Raise e
    end in
  scan_item w (PStr s) h = (opened, h1)
  /\ probe w (PStr s) h = (opened, h1)
  /\ (forall h0 prompt negative_prompt guidance_scale,
        remote_returns w h0 prompt negative_prompt guidance_scale (PStr s) ->
        h = after_predict h0 prompt negative_prompt guidance_scale (PStr s) ->
        generate_image w prompt negative_prompt guidance_scale h0
        = match Image_open w (EvExists (PStr s) :: h) (PStr s) with
          | Ret im => (Ret (PImage im), h1)
          | Raise e => (Ret PNone, EvPrint (DebugFullError e) :: h1)
          end).
Proof.
  intros _ Hexists h1 opened. subst h1 opened.
  assert (Hrun : probe w (PStr s) h
    = (match Image_open w (EvExists (PStr s) :: h) (PStr s) with
       | Ret im => Ret (Some (PImage im))
       | Raise e => Raise e
       end, EvImageOpen (PStr s) :: EvExists (PStr s) :: h)).
  { simpl. unfold_py. rewrite Hexists. by destruct (Image_open w _ _). }
  split; [exact Hrun|]. split; [exact Hrun|].
  intros h0 prompt negative_prompt guidance_scale Hremote ->.
  rewrite (generate_image_run _ _ _ _ _ _ Hremote), Hrun.
  by destruct (Image_open w _ _).
Qed.

Lemma local_file_before_url_witness :
  let w := demo_world x_url (PStr x_url) in
  let h := after_predict [] "a cat" "" (PInt 9) (PStr x_url) in
  generate_image w "a cat" "" (PInt 9) []
  = (Ret (PImage file_image),
     EvImageOpen (PStr x_url) :: EvExists (PStr x_url) :: h).
Proof.
  intros w h.
  destruct (local_file_before_url w x_url h) as (_ & _ & Htop);
    [reflexivity | reflexivity |].
  rewrite (Htop [] "a cat" "" (PInt 9)).
  - reflexivity.
  - repeat split; reflexivity.
  - reflexivity.
Defined.

(** ** Results that no probe matches *)

Lemma scan_item_unrecognized w item h :
  entry_unrecognized item = true -> scan_item w item h = (Ret None, h).
Proof.
  unfold entry_unrecognized, scan_item.
  destruct item; try done;
    destruct (dict_image _); try done;
    intros ->%negb_true_iff; reflexivity.
Qed.

Lemma scan_unrecognized w items : forall i h,
  forallb entry_unrecognized items = true ->
  scan w i items h = (Ret None, h).
Proof.
  induction items as [|item rest IH]; intros i h; [reflexivity|].
  simpl. intros [Hitem Hrest]%andb_prop.
  rewrite <- (IH (S i) h Hrest).
  apply scan_step_none. by apply scan_item_unrecognized.
Qed.

Lemma fallback_unrecognized w items h :
  forallb entry_unrecognized items = true ->
  fallback w items h = (Ret None, h).
Proof.
  destruct items as [|first_item rest]; [reflexivity|].
  simpl. intros [Hitem _]%andb_prop. revert Hitem.
  unfold entry_unrecognized.
  destruct first_item; try done; destruct (dict_image _); done.
Qed.

Lemma probe_unrecognized w result h :
  unrecognized result = true -> probe w result h = (Ret None, h).
Proof.
  destruct result; try apply scan_item_unrecognized.
  simpl. intros Hitems. unfold bind.
  rewrite (scan_unrecognized _ _ _ _ Hitems).
  by apply fallback_unrecognized.
Qed.

(** C7.  When the result matches none of the probes (a number, [None], a
    tuple, a mapping without [image], an object without [save], or a
    list, possibly empty, of entries that match none), [generate_image]
    returns [None] without raising; it prints that no image was found and
    calls nothing else. *)
Theorem unrecognized_result_gives_none w result
    prompt negative_prompt guidance_scale h :
  remote_returns w h prompt negative_prompt guidance_scale result ->
  unrecognized result = true ->
  generate_image w prompt negative_prompt guidance_scale h
  = (Ret PNone,
     EvPrint DebugNoValid
       :: after_predict h prompt negative_prompt guidance_scale result).
Proof.
  intros Hremote Hshape.
  rewrite (generate_image_run _ _ _ _ _ _ Hremote).
  by rewrite (probe_unrecognized _ _ _ Hshape).
Qed.

Lemma unrecognized_result_gives_none_witness :
  generate_image (demo_world out_png (PInt 42)) "a cat" "" (PInt 9) []
  = (Ret PNone,
     EvPrint DebugNoValid :: after_predict [] "a cat" "" (PInt 9) (PInt 42))
  /\ generate_image (demo_world out_png (PList [])) "a cat" "" (PInt 9) []
     = (Ret PNone,
        EvPrint DebugNoValid :: after_predict [] "a cat" "" (PInt 9) (PList [])).
Proof.
  split.
  - apply (unrecognized_result_gives_none (demo_world out_png (PInt 42))).
    + repeat split; reflexivity.
    + reflexivity.
  - apply (unrecognized_result_gives_none (demo_world out_png (PList []))).
    + repeat split; reflexivity.
    + reflexivity.
Defined.

(** ** Two calls on the same result *)

Lemma names_file_yields w v p im :
  names_file v p -> stable_file w p im -> always_yields w v (PImage im).
Proof.
  intros [->|Hd] Hfile.
  - by apply stable_text_yields.
  - destruct v; try done. by eapply stable_mapping_yields.
Qed.

Lemma probe_not_list w result :
  (forall items, result <> PList items) ->
  probe w result = scan_item w result.
Proof. intros Hshape. destruct result; try reflexivity. by destruct (Hshape items). Qed.

Lemma names_file_not_list v p items : names_file v p -> v <> PList items.
Proof. intros [->|Hd] Heq; [discriminate | by subst v]. Qed.

Lemma generate_image_references_file w result p im
    prompt negative_prompt guidance_scale h :
  references_file w result p ->
  stable_file w p im ->
  remote_returns w h prompt negative_prompt guidance_scale result ->
  fst (generate_image w prompt negative_prompt guidance_scale h)
  = Ret (PImage im).
Proof.
  intros [Hname|(pre & item & rest & -> & Hpre & Hname)] Hfile Hremote.
  - rewrite (generate_image_run _ _ _ _ _ _ Hremote).
    rewrite probe_not_list by (intros items; by eapply names_file_not_list).
    pose proof (names_file_yields w _ p im Hname Hfile
                  (after_predict h prompt negative_prompt guidance_scale result))
      as Hyield.
    destruct (scan_item w _ _) as [r hx]. simpl in Hyield. by subst r.
  - apply (generate_image_list_yield w pre item rest); [done..|].
    by eapply names_file_yields.
Qed.

(** C9, as stated, fails.  The result is the list
    [["https://example.com/x.png", {"image": "/tmp/out.png"}]]; the file
    is in place and keeps its contents, the server refuses the first
    connection only.  The first call logs the failed fetch and returns
    the picture of the file; the second call, on the same result, gets
    the picture of the server from the first entry. *)
Lemma earlier_entry_changes_second_call :
  let result := PList [PStr x_url; PDict {[ "image" := PStr out_png ]}] in
  let w := flaky_world result in
  let first_call := generate_image w "a cat" "" (PInt 9) [] in
  let second_call := generate_image w "a cat" "" (PInt 9) (snd first_call) in
  stable_file w out_png file_image
  /\ remote_returns w [] "a cat" "" (PInt 9) result
  /\ remote_returns w (snd first_call) "a cat" "" (PInt 9) result
  /\ fst first_call = Ret (PImage file_image)
  /\ fst second_call = Ret (PImage web_image)
  /\ fst second_call <> fst first_call.
Proof.
  simpl. split; [|split; [|split; [|split; [|split]]]].
  - intros h. split; reflexivity.
  - repeat split; reflexivity.
  - repeat split; reflexivity.
  - vm_compute. reflexivity.
  - vm_compute. reflexivity.
  - vm_compute. discriminate.
Qed.

(** C9, amended.  Two calls receive the same result; the result refers
    to a local file that stays in place and keeps its contents, and the
    reference is the first thing in it that can give an image: the result
    is the text or the mapping itself, or a list in which the referring
    entry, wherever it stands, comes after entries that never give an
    image.  Then both calls return the same decoded picture, that of the
    file, whatever happened before each call (the second call may start
    from the history the first one left). *)
Theorem stable_reference_same_image w result p im
    prompt negative_prompt guidance_scale h1 h2 :
  references_file w result p ->
  stable_file w p im ->
  remote_returns w h1 prompt negative_prompt guidance_scale result ->
  remote_returns w h2 prompt negative_prompt guidance_scale result ->
  fst (generate_image w prompt negative_prompt guidance_scale h1)
  = Ret (PImage im)
  /\ fst (generate_image w prompt negative_prompt guidance_scale h2)
     = fst (generate_image w prompt negative_prompt guidance_scale h1).
Proof.
  intros Hshape Hfile Hfirst Hsecond.
  rewrite !(generate_image_references_file w result p im) by done. done.
Qed.

Lemma stable_reference_same_image_witness :
  let result :=
    PList ([PDict {[ "foo" := PStr "bar" ]}; PStr "/tmp/missing.png"]
           ++ PDict {[ "image" := PStr out_png ]} :: [PStr x_url]) in
  let w := flaky_world result in
  let first_call := generate_image w "a cat" "" (PInt 9) [] in
  let second_call := generate_image w "a cat" "" (PInt 9) (snd first_call) in
  fst first_call = Ret (PImage file_image)
  /\ fst second_call = fst first_call.
Proof.
  intros result w first_call second_call.
  apply (stable_reference_same_image w result out_png).
  - right.
    exists [PDict {[ "foo" := PStr "bar" ]}; PStr "/tmp/missing.png"],
           (PDict {[ "image" := PStr out_png ]}), [PStr x_url].
    split; [reflexivity|]. split; [|by right].
    repeat constructor; intros h v; vm_compute; discriminate.
  - intros h. split; reflexivity.
  - repeat split; reflexivity.
  - repeat split; reflexivity.
Defined.

(** * Further properties of [generate_image] *)

(** ** The events a computation adds *)

Lemma emits_ret {A} (P : event -> Prop) (a : A) : emits P (ret a).
Proof. intros h. exists []. by split. Qed.

Lemma emits_call {A} (P : event -> Prop) ev (answer : history -> outcome A) :
  P ev -> emits P (call ev answer).
Proof. intros Hev h. exists [ev]. split; [reflexivity | by constructor]. Qed.

Lemma emits_print (P : event -> Prop) m : P (EvPrint m) -> emits P (print m).
Proof. intros Hev h. exists [EvPrint m]. split; [reflexivity | by constructor]. Qed.

Lemma emits_bind {A B} (P : event -> Prop) (m : M A) (k : A -> M B) :
  emits P m -> (forall a, emits P (k a)) -> emits P (bind m k).
Proof.
  intros Hm Hk h. unfold bind.
  destruct (Hm h) as (l1 & Hh1 & Hl1).
  destruct (m h) as [[a|e] h1]; simpl in Hh1; subst h1.
  - destruct (Hk a (l1 ++ h)%list) as (l2 & Hh2 & Hl2).
    exists (l2 ++ l1)%list. rewrite Hh2, app_assoc. split; [done|].
    by apply Forall_app.
  - by exists l1.
Qed.

Lemma emits_try_except {A} (P : event -> Prop) (m : M A) handler :
  emits P m -> (forall e, emits P (handler e)) -> emits P (try_except m handler).
Proof.
  intros Hm Hk h. unfold try_except.
  destruct (Hm h) as (l1 & Hh1 & Hl1).
  destruct (m h) as [[a|e] h1]; simpl in Hh1; subst h1.
  - by exists l1.
  - destruct (Hk e (l1 ++ h)%list) as (l2 & Hh2 & Hl2).
    exists (l2 ++ l1)%list. rewrite Hh2, app_assoc. split; [done|].
    by apply Forall_app.
Qed.

Lemma emits_mono {A} (P Q : event -> Prop) (m : M A) :
  (forall ev, P ev -> Q ev) -> emits P m -> emits Q m.
Proof.
  intros HPQ Hm h. destruct (Hm h) as (l & Hh & Hl).
  exists l. split; [done|]. eapply Forall_impl; eauto.
Qed.

Lemma probe_event_ok_mono paths paths' urls urls' ev :
  paths ⊆ paths' -> urls ⊆ urls' ->
  probe_event_ok paths urls ev -> probe_event_ok paths' urls' ev.
Proof. destruct ev; simpl; set_solver. Qed.

Lemma resolve_path_emits w p urls :
  emits (probe_event_ok [p] urls) (resolve_path w p).
Proof.
  unfold resolve_path, path_exists, open_image.
  apply emits_bind; [apply emits_call; simpl; set_solver|].
  intros [|]; [|apply emits_ret].
  repeat (apply emits_bind || apply emits_ret || intros ?).
  apply emits_call. simpl. set_solver.
Qed.

Lemma resolve_text_emits w s :
  emits (probe_event_ok [PStr s] [s]) (resolve_text w s).
Proof.
  unfold resolve_text, path_exists, open_image, fetch_image.
  apply emits_bind; [apply emits_call; simpl; set_solver|].
  intros [|].
  - repeat (apply emits_bind || apply emits_ret || intros ?).
    apply emits_call. simpl. set_solver.
  - destruct (startswith_http s) eqn:Hurl; [|apply emits_ret].
    repeat (apply emits_bind || apply emits_ret || intros ?).
    + apply emits_call. simpl. set_solver.
    + by apply emits_call.
Qed.

Lemma scan_item_emits w item :
  emits (probe_event_ok (candidate_of item) (text_of item)) (scan_item w item).
Proof.
  unfold candidate_of.
  destruct (dict_image item) as [image_path|] eqn:Hd.
  - destruct item; try done. rewrite (scan_item_dict _ _ _ Hd).
    apply resolve_path_emits.
  - destruct item; try (unfold scan_item; rewrite Hd; case_match; apply emits_ret).
    rewrite scan_item_text. apply resolve_text_emits.
Qed.

Lemma scan_emits w items : forall i,
  emits (probe_event_ok (flat_map candidate_of items) (flat_map text_of items))
        (scan w i items).
Proof.
  induction items as [|item rest IH]; intros i; simpl; [apply emits_ret|].
  apply emits_bind.
  - apply emits_try_except.
    + eapply emits_mono; [|apply scan_item_emits].
      intros ev. apply probe_event_ok_mono; set_solver.
    + intros e. apply emits_bind; [by apply emits_print|].
      intros _. apply emits_ret.
  - intros [v|]; [apply emits_ret|].
    eapply emits_mono; [|apply IH].
    intros ev. apply probe_event_ok_mono; set_solver.
Qed.

Lemma fallback_emits w items :
  emits (probe_event_ok (flat_map candidate_of items) (flat_map text_of items))
        (fallback w items).
Proof.
  destruct items as [|first_item rest]; [apply emits_ret|].
  eapply emits_mono with
    (P := probe_event_ok (candidate_of first_item) (text_of first_item)).
  { intros ev. apply probe_event_ok_mono; simpl; set_solver. }
  unfold candidate_of.
  destruct (dict_image first_item) as [image_path|] eqn:Hd.
  - destruct first_item; try done. rewrite (fallback_dict _ _ _ _ Hd).
    apply resolve_path_emits.
  - destruct first_item; try (unfold fallback; rewrite Hd; apply emits_ret).
    rewrite fallback_text. apply resolve_path_emits.
Qed.

Lemma probe_emits w result :
  emits (probe_event_ok (candidates result) (text_candidates result))
        (probe w result).
Proof.
  assert (Hcases : (exists items, result = PList items)
                   \/ (forall items, result <> PList items)).
  { destruct result; try (right; discriminate). left. eauto. }
  destruct Hcases as [[items ->]|Hother].
  - simpl. apply emits_bind; [apply scan_emits|].
    intros [v|]; [apply emits_ret | apply fallback_emits].
  - rewrite (probe_not_list _ _ Hother).
    replace (candidates result) with (candidate_of result)
      by (destruct result; try done; by destruct (Hother items)).
    replace (text_candidates result) with (text_of result)
      by (destruct result; try done; by destruct (Hother items)).
    apply scan_item_emits.
Qed.

(** What [generate_image] does for a prompt that passes the guard. *)
Lemma generate_image_cases w prompt negative_prompt guidance_scale h :
  whitespace_only prompt = false ->
  generate_image w prompt negative_prompt guidance_scale h
  = match Client w h space_name with
    | Raise e =>
        (Ret PNone, EvPrint (DebugFullError e) :: EvClient space_name :: h)
    | Ret _ =>
        match predict w (EvClient space_name :: h)
                prompt negative_prompt guidance_scale with
        | Raise e =>
            (Ret PNone,
             EvPrint (DebugFullError e)
               :: EvPredict prompt negative_prompt guidance_scale
               :: EvClient space_name :: h)
        | Ret result =>
            finish (probe w result
                      (after_predict h prompt negative_prompt guidance_scale
                         result))
        end
    end.
Proof.
  intros Hprompt.
  destruct (Client w h space_name) as [[]|e] eqn:Hclient.
  - destruct (predict w _ prompt negative_prompt guidance_scale)
      as [result|e] eqn:Hpredict.
    + by apply generate_image_run.
    + unfold generate_image.
      destruct (str_truthy (strip prompt)) eqn:Hs; simpl.
      2: { apply strip_falsy_iff in Hs. congruence. }
      unfold_py. fold space_name. by rewrite Hclient, Hpredict.
  - unfold generate_image.
    destruct (str_truthy (strip prompt)) eqn:Hs; simpl.
    2: { apply strip_falsy_iff in Hs. congruence. }
    unfold_py. fold space_name. by rewrite Hclient.
Qed.

Lemma finish_probe_emits w result h :
  exists l,
    snd (finish (probe w result h)) = (l ++ h)%list
    /\ Forall (probe_event_ok (candidates result) (text_candidates result)) l.
Proof.
  destruct (probe_emits w result h) as (l & Hh & Hl).
  destruct (probe w result h) as [[[v|]|e] h1]; simpl in *; subst h1.
  - by exists l.
  - exists (EvPrint DebugNoValid :: l). split; [done | by constructor].
  - exists (EvPrint (DebugFullError e) :: l). split; [done | by constructor].
Qed.

Lemma generate_image_emits w result prompt negative_prompt guidance_scale h :
  remote_returns w h prompt negative_prompt guidance_scale result ->
  exists l,
    snd (generate_image w prompt negative_prompt guidance_scale h)
    = (l ++ after_predict h prompt negative_prompt guidance_scale result)%list
    /\ Forall (probe_event_ok (candidates result) (text_candidates result)) l.
Proof.
  intros Hremote. rewrite (generate_image_run _ _ _ _ _ _ Hremote).
  apply finish_probe_emits.
Qed.

(** ** The guard and the remote call *)

(** The history is left as it was exactly when the prompt is empty or
    white space only: every other prompt reaches the service. *)
Theorem history_unchanged_iff_blank w prompt negative_prompt guidance_scale h :
  snd (generate_image w prompt negative_prompt guidance_scale h) = h
  <-> whitespace_only prompt = true.
Proof.
  split.
  - intros Hsame. destruct (whitespace_only prompt) eqn:Hprompt; [done|].
    exfalso. apply (f_equal length) in Hsame. revert Hsame.
    rewrite (generate_image_cases _ _ _ _ _ Hprompt).
    destruct (Client w h space_name) as [[]|e]; [|simpl; lia].
    destruct (predict w _ _ _ _) as [result|e]; [|simpl; lia].
    destruct (finish_probe_emits w result
                (after_predict h prompt negative_prompt guidance_scale result))
      as (l & -> & _).
    rewrite length_app. simpl. lia.
  - intros Hblank. unfold generate_image.
    by rewrite (strip_whitespace_only _ Hblank).
Qed.

Lemma history_unchanged_iff_blank_witness :
  whitespace_only "a cat" = false.
Proof.
  destruct (whitespace_only "a cat") eqn:Hprompt; [|reflexivity].
  apply (history_unchanged_iff_blank (demo_world out_png (PStr out_png))
           "a cat" "" (PInt 9) []) in Hprompt.
  discriminate Hprompt.
Defined.

(** A prompt that passes the guard makes the function construct the
    client for the fixed space [stabilityai/stable-diffusion], first of
    all; when the client is there, [predict] is called next with the
    prompt as given (not stripped), the negative prompt and the scale. *)
Theorem remote_called_with_given_arguments w prompt negative_prompt
    guidance_scale h :
  whitespace_only prompt = false ->
  (exists l,
      snd (generate_image w prompt negative_prompt guidance_scale h)
      = (l ++ EvClient "stabilityai/stable-diffusion" :: h)%list)
  /\ (Client w h "stabilityai/stable-diffusion" = Ret tt ->
      exists l,
        snd (generate_image w prompt negative_prompt guidance_scale h)
        = (l ++ EvPredict prompt negative_prompt guidance_scale
             :: EvClient "stabilityai/stable-diffusion" :: h)%list).
Proof.
  intros Hprompt. fold space_name.
  rewrite (generate_image_cases _ _ _ _ _ Hprompt).
  assert (Hreached : forall u, Client w h space_name = Ret u ->
            exists l,
              snd (match predict w (EvClient space_name :: h)
                           prompt negative_prompt guidance_scale with
                   | Raise e =>
                       (Ret PNone,
                        EvPrint (DebugFullError e)
                          :: EvPredict prompt negative_prompt guidance_scale
                          :: EvClient space_name :: h)
                   | Ret result =>
                       finish (probe w result
                                 (after_predict h prompt negative_prompt
                                    guidance_scale result))
                   end)
              = (l ++ EvPredict prompt negative_prompt guidance_scale
                   :: EvClient space_name :: h)%list).
  { intros u _. destruct (predict w _ _ _ _) as [result|e].
    - destruct (finish_probe_emits w result
                  (after_predict h prompt negative_prompt guidance_scale result))
        as (l & -> & _).
      exists (l ++ [EvPrint (DebugResult result);
                    EvPrint (DebugResultType result)])%list.
      unfold after_predict. by rewrite <- app_assoc.
    - by exists [EvPrint (DebugFullError e)]. }
  split.
  - destruct (Client w h space_name) as [u|e] eqn:Hclient.
    + destruct (Hreached u eq_refl) as [l ->].
      exists (l ++ [EvPredict prompt negative_prompt guidance_scale])%list.
      by rewrite <- app_assoc.
    + by exists [EvPrint (DebugFullError e)].
  - intros Hclient. rewrite Hclient. by apply (Hreached tt).
Qed.

Lemma remote_called_with_given_arguments_witness :
  exists l,
    snd (generate_image (demo_world out_png (PInt 42)) "  a cat " "" (PInt 9) [])
    = (l ++ [EvPredict "  a cat " "" (PInt 9);
             EvClient "stabilityai/stable-diffusion"])%list.
Proof.
  apply (remote_called_with_given_arguments (demo_world out_png (PInt 42))
           "  a cat " "" (PInt 9) []); reflexivity.
Defined.

(** When the client cannot be constructed, or [predict] raises, the
    call gives [None]; the failure is printed and nothing else happens:
    no probe of the file system, no fetch. *)
Theorem remote_failure_gives_none w prompt negative_prompt guidance_scale h e :
  whitespace_only prompt = false ->
  (Client w h space_name = Raise e ->
   generate_image w prompt negative_prompt guidance_scale h
   = (Ret PNone, EvPrint (DebugFullError e) :: EvClient space_name :: h))
  /\ (Client w h space_name = Ret tt ->
      predict w (EvClient space_name :: h) prompt negative_prompt guidance_scale
      = Raise e ->
      generate_image w prompt negative_prompt guidance_scale h
      = (Ret PNone,
         EvPrint (DebugFullError e)
           :: EvPredict prompt negative_prompt guidance_scale
           :: EvClient space_name :: h)).
Proof.
  intros Hprompt. rewrite (generate_image_cases _ _ _ _ _ Hprompt).
  split.
  - by intros ->.
  - by intros -> ->.
Qed.

Lemma remote_failure_gives_none_witness :
  generate_image offline_world "a cat" "" (PInt 9) []
  = (Ret PNone, [EvPrint (DebugFullError ConnectionError); EvClient space_name]).
Proof.
  apply (remote_failure_gives_none offline_world "a cat" "" (PInt 9) []
           ConnectionError); reflexivity.
Defined.

(** After [predict] has answered, the service is not called again: none
    of the later events is a client construction or a [predict] call. *)
Theorem no_second_remote_call w result prompt negative_prompt guidance_scale h :
  remote_returns w h prompt negative_prompt guidance_scale result ->
  exists l,
    snd (generate_image w prompt negative_prompt guidance_scale h)
    = (l ++ after_predict h prompt negative_prompt guidance_scale result)%list
    /\ Forall (fun ev => is_remote ev = false) l.
Proof.
  intros Hremote.
  destruct (generate_image_emits _ _ _ _ _ _ Hremote) as (l & Hh & Hl).
  exists l. split; [done|].
  eapply Forall_impl; [exact Hl|]. by intros [].
Qed.

Lemma no_second_remote_call_witness :
  let result := PList [PStr x_url; PStr out_png] in
  exists l,
    snd (generate_image (flaky_world result) "a cat" "" (PInt 9) [])
    = (l ++ after_predict [] "a cat" "" (PInt 9) result)%list
    /\ Forall (fun ev => is_remote ev = false) l.
Proof.
  intros result.
  apply (no_second_remote_call (flaky_world result)).
  repeat split; reflexivity.
Defined.

(** ** Which files and addresses a call touches *)

(** Every address the function fetches is a bare text of the result (the
    result itself or an entry of the list) that begins with [http://] or
    [https://]: values under [image] keys and other texts are never
    fetched. *)
Theorem fetches_only_http_texts_of_result w result
    prompt negative_prompt guidance_scale h :
  remote_returns w h prompt negative_prompt guidance_scale result ->
  exists l,
    snd (generate_image w prompt negative_prompt guidance_scale h)
    = (l ++ after_predict h prompt negative_prompt guidance_scale result)%list
    /\ forall url, EvGet url ∈ l ->
         url ∈ text_candidates result /\ startswith_http url = true.
Proof.
  intros Hremote.
  destruct (generate_image_emits _ _ _ _ _ _ Hremote) as (l & Hh & Hl).
  exists l. split; [done|]. intros url Hin.
  by apply (proj1 (Forall_forall _ _) Hl (EvGet url)).
Qed.

Lemma fetches_only_http_texts_of_result_witness :
  let result := PList [PDict {[ "image" := PStr x_url ]}; PStr x_url] in
  exists l,
    snd (generate_image (demo_world out_png result) "a cat" "" (PInt 9) [])
    = (l ++ after_predict [] "a cat" "" (PInt 9) result)%list
    /\ forall url, EvGet url ∈ l ->
         url ∈ text_candidates result /\ startswith_http url = true.
Proof.
  intros result.
  apply (fetches_only_http_texts_of_result (demo_world out_png result)).
  repeat split; reflexivity.
Defined.

(** Every path the function probes or opens is a candidate of the
    result: the [image] value of a mapping or a bare text, taken from the
    result itself or from an entry of the list. *)
Theorem touches_only_candidates_of_result w result
    prompt negative_prompt guidance_scale h :
  remote_returns w h prompt negative_prompt guidance_scale result ->
  exists l,
    snd (generate_image w prompt negative_prompt guidance_scale h)
    = (l ++ after_predict h prompt negative_prompt guidance_scale result)%list
    /\ forall p, EvExists p ∈ l \/ EvImageOpen p ∈ l -> p ∈ candidates result.
Proof.
  intros Hremote.
  destruct (generate_image_emits _ _ _ _ _ _ Hremote) as (l & Hh & Hl).
  exists l. split; [done|]. intros p [Hin|Hin].
  - by apply (proj1 (Forall_forall _ _) Hl (EvExists p)).
  - by apply (proj1 (Forall_forall _ _) Hl (EvImageOpen p)).
Qed.

Lemma touches_only_candidates_of_result_witness :
  let result := PList [PDict {[ "image" := PStr "/tmp/missing.png" ]};
                       PStr out_png] in
  exists l,
    snd (generate_image (demo_world out_png result) "a cat" "" (PInt 9) [])
    = (l ++ after_predict [] "a cat" "" (PInt 9) result)%list
    /\ forall p, EvExists p ∈ l \/ EvImageOpen p ∈ l -> p ∈ candidates result.
Proof.
  intros result.
  apply (touches_only_candidates_of_result (demo_world out_png result)).
  repeat split; reflexivity.
Defined.

(** ** The remaining shapes of a result *)

(** A result that has a [save] attribute (a PIL image, or any object
    that exposes one) is handed back as it is, with no call to the file
    system or the network and no further print. *)
Theorem result_with_save_is_returned w result
    prompt negative_prompt guidance_scale h :
  remote_returns w h prompt negative_prompt guidance_scale result ->
  hasattr_save result = true ->
  generate_image w prompt negative_prompt guidance_scale h
  = (Ret result, after_predict h prompt negative_prompt guidance_scale result).
Proof.
  intros Hremote Hsave.
  rewrite (generate_image_run _ _ _ _ _ _ Hremote).
  destruct result; try discriminate Hsave; [reflexivity|].
  cbn [probe dict_image]. by rewrite Hsave.
Qed.

Lemma result_with_save_is_returned_witness :
  let result := PObj ["size"; "save"] in
  generate_image (demo_world out_png result) "a cat" "" (PInt 9) []
  = (Ret result, after_predict [] "a cat" "" (PInt 9) result).
Proof.
  intros result.
  apply (result_with_save_is_returned (demo_world out_png result));
    [repeat split|]; reflexivity.
Defined.

(** A bare text that is no existing path and does not begin with
    [http://] or [https://] (an [ftp://] address, a missing file) gives
    [None] after the one existence probe: nothing is opened or fetched. *)
Theorem other_text_gives_none w s prompt negative_prompt guidance_scale h :
  remote_returns w h prompt negative_prompt guidance_scale (PStr s) ->
  let h0 := after_predict h prompt negative_prompt guidance_scale (PStr s) in
  os_path_exists w h0 (PStr s) = Ret false ->
  startswith_http s = false ->
  generate_image w prompt negative_prompt guidance_scale h
  = (Ret PNone, EvPrint DebugNoValid :: EvExists (PStr s) :: h0).
Proof.
  intros Hremote h0 Hmissing Hscheme.
  rewrite (generate_image_run _ _ _ _ _ _ Hremote). fold h0.
  simpl. unfold_py. by rewrite Hmissing, Hscheme.
Qed.

Lemma other_text_gives_none_witness :
  let result := PStr "ftp://example.com/x.png" in
  generate_image (demo_world out_png result) "a cat" "" (PInt 9) []
  = (Ret PNone,
     EvPrint DebugNoValid :: EvExists result
       :: after_predict [] "a cat" "" (PInt 9) result).
Proof.
  intros result.
  apply (other_text_gives_none (demo_world out_png result)
           "ftp://example.com/x.png");
    [repeat split| |]; reflexivity.
Defined.

(** ** The retry on a disk that does not change *)

Lemma resolve_path_stable w p h h1 v h2 :
  stable_disk w ->
  resolve_path w p h1 = (Ret (Some v), h2) ->
  exists hx, resolve_path w p h = (Ret (Some v), hx).
Proof.
  intros Hstable. unfold resolve_path. unfold_py.
  destruct (Hstable h h1 p) as [-> _].
  destruct (os_path_exists w h1 p) as [[|]|e]; try done.
  destruct (Hstable (EvExists p :: h) (EvExists p :: h1) p) as [_ ->].
  destruct (Image_open w _ p) as [im|e]; try done.
  intros [= <- <-]. eauto.
Qed.

Lemma fallback_yield_is_scan_yield w first_item rest h h1 v h2 :
  stable_disk w ->
  fallback w (first_item :: rest) h1 = (Ret (Some v), h2) ->
  exists hx, scan_item w first_item h = (Ret (Some v), hx).
Proof.
  intros Hstable. unfold fallback, scan_item.
  destruct (dict_image first_item) as [image_path|] eqn:Hd.
  - apply resolve_path_stable, Hstable.
  - destruct first_item; try done.
    intros Hrun.
    destruct (resolve_path_stable w (PStr s) h h1 v h2 Hstable Hrun)
      as [hx Hfirst].
    revert Hfirst. unfold resolve_path. unfold_py.
    destruct (os_path_exists w h (PStr s)) as [[|]|e]; try done. eauto.
Qed.

Lemma scan_none_first_item w first_item rest i h h1 :
  scan w i (first_item :: rest) h = (Ret None, h1) ->
  forall v hx, scan_item w first_item h <> (Ret (Some v), hx).
Proof.
  intros Hscan v hx Hitem.
  by rewrite (scan_step_some _ _ _ _ _ _ _ Hitem) in Hscan.
Qed.

(** On a disk that does not change during the call, the retry on the
    first entry never gives an image: when the scan of a list ends
    without one, [generate_image] returns [None]. *)
Theorem retry_needs_a_changed_disk w items h1
    prompt negative_prompt guidance_scale h :
  stable_disk w ->
  remote_returns w h prompt negative_prompt guidance_scale (PList items) ->
  scan w 0 items
    (after_predict h prompt negative_prompt guidance_scale (PList items))
  = (Ret None, h1) ->
  (forall v h2, fallback w items h1 <> (Ret (Some v), h2))
  /\ fst (generate_image w prompt negative_prompt guidance_scale h) = Ret PNone.
Proof.
  intros Hstable Hremote Hscan.
  assert (Hretry : forall v h2, fallback w items h1 <> (Ret (Some v), h2)).
  { intros v h2 Hrun. destruct items as [|first_item rest]; [done|].
    destruct (fallback_yield_is_scan_yield w first_item rest
                (after_predict h prompt negative_prompt guidance_scale
                   (PList (first_item :: rest))) h1 v h2 Hstable Hrun)
      as [hx Hitem].
    by apply (scan_none_first_item _ _ _ _ _ _ Hscan v hx). }
  split; [exact Hretry|].
  rewrite (generate_image_run _ _ _ _ _ _ Hremote), (probe_list _ _ _ _ Hscan).
  destruct (fallback w items h1) as [[[v|]|e] h2] eqn:Hrun; try done.
  by destruct (Hretry v h2).
Qed.

Lemma retry_needs_a_changed_disk_witness :
  let result := PList [PStr out_png] in
  fst (generate_image (corrupt_world out_png result) "a cat" "" (PInt 9) [])
  = Ret PNone.
Proof.
  intros result.
  eapply (retry_needs_a_changed_disk (corrupt_world out_png result)
            [PStr out_png]).
  - intros h1 h2 p. split; reflexivity.
  - repeat split; reflexivity.
  - reflexivity.
Defined.

(** On such a disk a corrupt file at the head of the list is reported
    twice, by the scan under its index and by the retry as the error of
    the whole call. *)
Example corrupt_first_entry_run :
  let result := PList [PStr out_png] in
  generate_image (corrupt_world out_png result) "a cat" "" (PInt 9) []
  = (Ret PNone,
     EvPrint (DebugFullError UnidentifiedImageError)
       :: EvImageOpen (PStr out_png) :: EvExists (PStr out_png)
       :: EvPrint (DebugItemError 0 UnidentifiedImageError)
       :: EvImageOpen (PStr out_png) :: EvExists (PStr out_png)
       :: after_predict [] "a cat" "" (PInt 9) result).
Proof. reflexivity. Qed.

(** ** Absence comes with a diagnostic *)

(** When a call that passed the guard returns [None], the last thing it
    did was to print why: that no valid image was found, or the error
    that ended the call. *)
Theorem none_comes_with_diagnostic w prompt negative_prompt guidance_scale h h' :
  whitespace_only prompt = false ->
  generate_image w prompt negative_prompt guidance_scale h = (Ret PNone, h') ->
  exists h'',
    h' = EvPrint DebugNoValid :: h''
    \/ exists e, h' = EvPrint (DebugFullError e) :: h''.
Proof.
  intros Hprompt. rewrite (generate_image_cases _ _ _ _ _ Hprompt).
  destruct (Client w h space_name) as [u|e]; [|intros [= <-]; eauto].
  destruct (predict w _ _ _ _) as [result|e]; [|intros [= <-]; eauto].
  destruct (probe w result _) as [[[v|]|e] h1] eqn:Hprobe; simpl.
  - intros [= -> <-]. by apply probe_returns in Hprobe.
  - intros [= <-]. eauto.
  - intros [= <-]. eauto.
Qed.

Lemma none_comes_with_diagnostic_witness :
  exists h'',
    EvPrint DebugNoValid :: after_predict [] "a cat" "" (PInt 9) (PInt 42)
    = EvPrint DebugNoValid :: h''
    \/ exists e,
        EvPrint DebugNoValid :: after_predict [] "a cat" "" (PInt 9) (PInt 42)
        = EvPrint (DebugFullError e) :: h''.
Proof.
  apply (none_comes_with_diagnostic (demo_world out_png (PInt 42))
           "a cat" "" (PInt 9) []); reflexivity.
Defined.

(** * What can leave [generate_image] *)

(** ** The two embeddings agree *)

Ltac unfold_io :=
  unfold Fallible.open_image, Fallible.fetch_image, Fallible.path_exists,
    Fallible.print, Fallible.call, Fallible.try_except, Fallible.bind,
    Fallible.ret, lift_run in *.

(** Case analysis on the answers of the collaborators of [w], in the
    order in which the goal meets them. *)
Ltac destruct_answers w :=
  repeat (simpl;
    match goal with
    | |- context [os_path_exists w ?h ?p] =>
        destruct (os_path_exists w h p) as [[|]|?]
    | |- context [Image_open w ?h ?p] => destruct (Image_open w h p)
    | |- context [requests_get w ?h ?u] => destruct (requests_get w h u)
    | |- context [Image_open_bytes w ?h ?c] =>
        destruct (Image_open_bytes w h c)
    | |- context [startswith_http ?s] => destruct (startswith_http s)
    | |- context [hasattr_save ?v] => destruct (hasattr_save v)
    | |- context [bool_decide ?P] => destruct (bool_decide P)
    end).

Lemma lift_scan_item w item h :
  Fallible.scan_item (lift_world w) item h = lift_run (scan_item w item h).
Proof.
  unfold Fallible.scan_item, scan_item.
  destruct (dict_image item) as [image_path|]; [|destruct item];
    unfold_io; unfold_py; destruct_answers w; reflexivity.
Qed.

Lemma lift_scan w items : forall i h,
  Fallible.scan (lift_world w) i items h = lift_run (scan w i items h).
Proof.
  induction items as [|item rest IH]; intros i h; [reflexivity|].
  cbn [Fallible.scan]. unfold Fallible.bind at 1, Fallible.try_except.
  rewrite lift_scan_item. unfold lift_run at 1.
  destruct (scan_item w item h) as [[[v|]|e] h1] eqn:Hitem.
  - by rewrite (scan_step_some _ _ _ _ _ _ _ Hitem).
  - rewrite (scan_step_none _ _ _ _ _ _ Hitem). apply IH.
  - rewrite (scan_step_raise _ _ _ _ _ _ _ Hitem). apply IH.
Qed.

Lemma lift_fallback w items h :
  Fallible.fallback (lift_world w) items h = lift_run (fallback w items h).
Proof.
  unfold Fallible.fallback, fallback.
  destruct items as [|first_item rest]; [reflexivity|].
  destruct (dict_image first_item) as [image_path|]; [|destruct first_item];
    unfold_io; unfold_py; destruct_answers w; reflexivity.
Qed.

Lemma lift_probe w result h :
  Fallible.probe (lift_world w) result h = lift_run (probe w result h).
Proof.
  assert (Hcases : (exists items, result = PList items)
                   \/ (forall items, result <> PList items)).
  { destruct result; try (right; discriminate). left. eauto. }
  destruct Hcases as [[items ->]|Hother].
  - cbn [Fallible.probe probe]. unfold Fallible.bind, bind.
    rewrite lift_scan. unfold lift_run at 1.
    destruct (scan w 0 items h) as [[[v|]|e] h1]; simpl; try reflexivity.
    apply lift_fallback.
  - rewrite (probe_not_list _ _ Hother), <- lift_scan_item.
    destruct result; try reflexivity. by destruct (Hother items).
Qed.

(** On the worlds of the first embedding the function of [Fallible] is
    the function of the first embedding. *)
Lemma lift_generate_image w prompt negative_prompt guidance_scale h :
  Fallible.generate_image (lift_world w) prompt negative_prompt guidance_scale h
  = lift_run (generate_image w prompt negative_prompt guidance_scale h).
Proof.
  unfold Fallible.generate_image, generate_image.
  destruct (negb (str_truthy (strip prompt))); [reflexivity|].
  unfold Fallible.try_except at 1, try_except at 1.
  unfold Fallible.bind at 1, bind at 1, Fallible.call at 1, call at 1.
  simpl. destruct (Client w h _) as [[]|e]; simpl; [|reflexivity].
  unfold Fallible.bind at 1, bind at 1, Fallible.call at 1, call at 1.
  simpl. destruct (predict w _ _ _ _) as [result|e]; simpl; [|reflexivity].
  unfold Fallible.bind at 1, bind at 1, Fallible.print at 1, print at 1.
  unfold Fallible.call at 1. simpl.
  unfold Fallible.bind at 1, bind at 1, Fallible.print at 1, print at 1.
  unfold Fallible.call at 1. simpl.
  unfold Fallible.bind at 1, bind at 1.
  rewrite lift_probe. unfold lift_run at 1.
  destruct (probe w result _) as [[[v|]|e] h1]; reflexivity.
Qed.

Example lifted_scenario_url :
  fst (Fallible.generate_image (lift_world (demo_world out_png (PStr x_url)))
         "a cat" "" (PInt 9) [])
  = Fallible.Ret (PImage web_image).
Proof. vm_compute. reflexivity. Qed.

(** ** Exceptions from outside [Exception] come from the collaborators *)





Section Calm.

Variable w : Fallible.World.
Hypothesis Hworld : Fallible.raises_only_Exception w.






End Calm.

(** ** What a probe can return, with fallible diagnostics *)






(** ** The claim that nothing is raised *)


Lemma lift_world_raises_only_Exception w :
  Fallible.raises_only_Exception (lift_world w).
Proof.
  repeat split; intros; simpl; try done;
    match goal with |- Fallible.tame (lift_outcome ?o) => by destruct o end.
Qed.



(** There the failure of the first entry cannot be logged: the print of
    line 51 raises, the scan is left, and the outer handler turns the
    whole call into [None]. *)
Example steady_world_run :
  Fallible.generate_image steady_world "a cat" "" (PInt 9) []
  = (Fallible.Ret PNone,
     EvPrint (DebugFullError BrokenPipeError)
       :: EvPrint (DebugItemError 0 TypeError) :: EvExists PNone
       :: after_predict [] "a cat" "" (PInt 9)
            (PList [PDict {[ "image" := PNone ]}; PStr out_png])).
Proof. vm_compute. reflexivity. Qed.
